(** * SDF descent: [project_to_valid] of scripts/sdf_descent.py

    A shallow embedding of the finite-difference gradient ascent that
    pushes a pool of eight noisy copies of a configuration towards
    positive signed distance, and the properties of it that the
    specification states.

    The Python function works on numpy arrays that are updated in place and
    calls an oracle, [robot.sdf], that lives outside the repository.  The
    embedding keeps both: arrays that a caller can observe ([q] and the
    candidate pool) are objects of a store, the oracle is a parameter that
    may raise, and every call of it is recorded. *)

From Stdlib Require Import ZArith List Lia Floats.
From stdpp Require Import base option list list_monad gmap.

Set Default Proof Using "Type".
Set Warnings "-inexact-float".

(** ** Scalars and random numbers *)

(** The element type of the arrays.  numpy takes it from [q] (float64 for a
    list of Python floats); what the function needs of it are the four
    arithmetic operations, unary minus and three literals. *)
Class Scalar (F : Type) := {
  fadd : F → F → F;
  fsub : F → F → F;
  fmul : F → F → F;
  fdiv : F → F → F;
  fneg : F → F;
  fzero : F;            (* the fill value of np.zeros *)
  ftwo : F;             (* the literal 2 of line 48 *)
  fh : F                (* the literal 1e-4 of line 29 *)
}.

(** numpy's generators are outside the repository: [default_rng seed] is a
    generator object in the state the seed defines and [uniform1 low high]
    draws one number and advances the generator. *)
Class Rng (F G : Type) := {
  default_rng : Z → G;
  uniform1 : F → F → G → F * G
}.

(** IEEE 754 binary64, the arithmetic of numpy's float64. *)
#[export] Instance binary64 : Scalar float := {
  fadd := PrimFloat.add;
  fsub := PrimFloat.sub;
  fmul := PrimFloat.mul;
  fdiv := PrimFloat.div;
  fneg := PrimFloat.opp;
  fzero := 0%float;
  ftwo := 2%float;
  fh := 0x1.a36e2eb1c432dp-14%float
}.

Abbreviation loc := positive.

Inductive exn := SdfError | IndexError | ValueError | TypeError.

Section Model.
Context {F : Type} {SF : Scalar F} {G : Type} {RG : Rng F G} {Env : Type}.

(** ** The store *)

(** A one-dimensional array (or list) of scalars, or a two-dimensional
    array as the list of its rows. *)
Inductive obj := Vec (v : list F) | Mat (m : list (list F)).

(** The three places that call [robot.sdf]: line 23 with candidate [i],
    lines 39 and 43 with candidate [i] probed in dimension [d]. The last
    field is the configuration passed. *)
Inductive sdf_call :=
| Baseline (i : nat) (c : list F)
| ProbePlus (i d : nat) (c : list F)
| ProbeMinus (i d : nat) (c : list F).

(** What a run can read or change: the objects, the calls made to the
    oracle so far, and the process-wide generator of [numpy.random]. *)
Record World := mkWorld {
  heap : gmap loc obj;
  sdf_log : list sdf_call;
  global_rng : G
}.

Definition put (l : loc) (o : obj) (w : World) : World :=
  mkWorld (<[l := o]> (heap w)) (sdf_log w) (global_rng w).

Definition logs (cs : list sdf_call) (w : World) : World :=
  mkWorld (heap w) (sdf_log w ++ cs) (global_rng w).

(** ** Computations that may raise *)

Inductive outcome (A : Type) :=
| Ret (a : A) (w : World)
| Raise (e : exn) (w : World).
Global Arguments Ret {A} a w.
Global Arguments Raise {A} e w.

Definition M (A : Type) : Type := World → outcome A.

Definition ret {A} (a : A) : M A := λ w, Ret a w.
Definition raise {A} (e : exn) : M A := λ w, Raise e w.
Definition bind {A B} (m : M A) (k : A → M B) : M B :=
  λ w, match m w with Ret a w' => k a w' | Raise e w' => Raise e w' end.

Notation "x <- m ;; k" := (bind m (λ x, k))
  (at level 100, m at next level, right associativity).
Notation "m ;;; k" := (bind m (λ _, k))
  (at level 100, right associativity).

(** [for x in l: acc = body(x, acc)] *)
Fixpoint for_fold {A S} (l : list A) (body : A → S → M S) (acc : S) : M S :=
  match l with
  | [] => ret acc
  | x :: l' => acc' <- body x acc ;; for_fold l' body acc'
  end.

(** ** Array primitives *)

(** [len(q)] *)
Definition len (q : loc) : M nat := λ w,
  match heap w !! q with
  | Some (Vec v) => Ret (length v) w
  | _ => Raise TypeError w
  end.

(** [np.tile(q, (reps, 1))] for a one-dimensional [q]: a new array whose
    [reps] rows are copies of [q]. *)
Definition np_tile (q : loc) (reps : nat) : M loc := λ w,
  match heap w !! q with
  | Some (Vec v) =>
      let l := fresh (dom (heap w)) in
      Ret l (put l (Mat (replicate reps v)) w)
  | _ => Raise TypeError w
  end.

Definition shape (m : list (list F)) : list nat := length <$> m.

(** [a += b] on two-dimensional arrays of one shape. *)
Definition iadd (a : loc) (b : list (list F)) : M unit := λ w,
  match heap w !! a with
  | Some (Mat m) =>
      if decide (shape m = shape b)
      then Ret () (put a (Mat (zip_with (zip_with fadd) m b)) w)
      else Raise ValueError w
  | _ => Raise TypeError w
  end.

(** [a[i]], read: the contents of row [i]. *)
Definition get_row (a : loc) (i : nat) : M (list F) := λ w,
  match heap w !! a with
  | Some (Mat m) =>
      match m !! i with
      | Some r => Ret r w
      | None => Raise IndexError w
      end
  | _ => Raise TypeError w
  end.

(** [a[i, d] = x] *)
Definition set_item (a : loc) (i d : nat) (x : F) : M unit := λ w,
  match heap w !! a with
  | Some (Mat m) =>
      match m !! i with
      | Some r =>
          if decide (d < length r)
          then Ret () (put a (Mat (<[i := <[d := x]> r]> m)) w)
          else Raise IndexError w
      | None => Raise IndexError w
      end
  | _ => Raise TypeError w
  end.

(** [a[i] += delta] *)
Definition iadd_row (a : loc) (i : nat) (delta : list F) : M unit := λ w,
  match heap w !! a with
  | Some (Mat m) =>
      match m !! i with
      | Some r =>
          if decide (length r = length delta)
          then Ret () (put a (Mat (<[i := zip_with fadd r delta]> m)) w)
          else Raise ValueError w
      | None => Raise IndexError w
      end
  | _ => Raise TypeError w
  end.

(** [np.zeros_like(a)] *)
Definition zeros_like (a : loc) : M (list (list F)) := λ w,
  match heap w !! a with
  | Some (Mat m) => Ret ((λ r, replicate (length r) fzero) <$> m) w
  | _ => Raise TypeError w
  end.

(** Arrays that never leave the function ([noise], [dists], [grads],
    [original_q]) are values; reading and writing them raises out of
    range as numpy does. *)
Definition index {A} (l : list A) (i : nat) : M A :=
  match l !! i with Some x => ret x | None => raise IndexError end.

Definition store (l : list F) (i : nat) (x : F) : M (list F) :=
  if decide (i < length l) then ret (<[i := x]> l) else raise IndexError.

Definition store2 (m : list (list F)) (i d : nat) (x : F) : M (list (list F)) :=
  match m !! i with
  | Some r =>
      if decide (d < length r) then ret (<[i := <[d := x]> r]> m)
      else raise IndexError
  | None => raise IndexError
  end.

(** ** The collaborators *)

(** A robot module: [robot.sdf(configuration, environment)] is the signed
    distance, or [None] when the call raises. *)
Record Robot := mkRobot { sdf : list F → Env → option F }.

(** [rng.uniform(low, high, (k, n))]: [k * n] draws, stored row by row. *)
Fixpoint draw_row (low high : F) (n : nat) (g : G) : list F * G :=
  match n with
  | 0 => ([], g)
  | S n' =>
      let '(x, g1) := uniform1 low high g in
      let '(r, g2) := draw_row low high n' g1 in
      (x :: r, g2)
  end.

Fixpoint uniform (low high : F) (k n : nat) (g : G) : list (list F) * G :=
  match k with
  | 0 => ([], g)
  | S k' =>
      let '(r, g1) := draw_row low high n g in
      let '(m, g2) := uniform low high k' n g1 in
      (r :: m, g2)
  end.

(** ** project_to_valid, block by block *)

Definition n_candidates : nat := 8.

(** Lines 7 to 17: the pool of noisy copies of [q], and [dim]. *)
Definition init_candidates (q : loc) (noise_scale : F) : M (loc * nat) :=
  dim <- len q ;;
  let rng := default_rng 42 in
  candidates <- np_tile q n_candidates ;;
  let noise := (uniform (fneg noise_scale) noise_scale n_candidates dim rng).1 in
  iadd candidates noise ;;;
  ret (candidates, dim).

Section Step.
Variables (robot : Robot) (env : Env).

(** [robot.sdf(c, env)], recorded before the oracle answers. *)
Definition call_sdf (site : list F → sdf_call) (c : list F) : M F := λ w,
  match sdf robot c env with
  | Some v => Ret v (logs [site c] w)
  | None => Raise SdfError (logs [site c] w)
  end.

(** Lines 21 to 23. *)
Definition compute_sdfs (candidates : loc) : M (list F) :=
  for_fold (seq 0 n_candidates)
    (λ i dists,
       ci <- get_row candidates i ;;
       v <- call_sdf (Baseline i) ci ;;
       store dists i v)
    (replicate n_candidates fzero).

(** Lines 35 to 48: one pass of the loop over [d] for candidate [i]. *)
Definition probe (candidates : loc) (i : nat) (original_q : list F)
    (d : nat) (grads : list (list F)) : M (list (list F)) :=
  val <- index original_q d ;;
  set_item candidates i d (fadd val fh) ;;;
  cp <- get_row candidates i ;;
  f_plus <- call_sdf (ProbePlus i d) cp ;;
  set_item candidates i d (fsub val fh) ;;;
  cm <- get_row candidates i ;;
  f_minus <- call_sdf (ProbeMinus i d) cm ;;
  set_item candidates i d val ;;;
  store2 grads i d (fdiv (fsub f_plus f_minus) (fmul ftwo fh)).

(** Lines 28 to 48. *)
Definition compute_grads (candidates : loc) (dim : nat) : M (list (list F)) :=
  grads0 <- zeros_like candidates ;;
  for_fold (seq 0 n_candidates)
    (λ i grads,
       original_q <- get_row candidates i ;;
       for_fold (seq 0 dim) (probe candidates i original_q) grads)
    grads0.

(** Lines 52 and 53. *)
Definition apply_update (candidates : loc) (grads : list (list F))
    (learning_rate : F) : M unit :=
  for_fold (seq 0 n_candidates)
    (λ i _,
       gi <- index grads i ;;
       iadd_row candidates i ((λ g, fmul g learning_rate) <$> gi))
    ().

(** Lines 20 to 53: the body of the loop over [step]. *)
Definition descent_step (candidates : loc) (dim : nat) (learning_rate : F)
    : M unit :=
  compute_sdfs candidates ;;;
  grads <- compute_grads candidates dim ;;
  apply_update candidates grads learning_rate.


End Step.

(** [range(steps)] *)
Definition range (steps : Z) : list nat := seq 0 (Z.to_nat steps).

Definition project_to_valid (robot : Robot) (q : loc) (env : Env)
    (steps : Z) (learning_rate noise_scale : F) : M loc :=
  pool <- init_candidates q noise_scale ;;
  let '(candidates, dim) := pool in
  for_fold (range steps)
    (λ step _, descent_step robot env candidates dim learning_rate) () ;;;
  ret candidates.


(** ** One step as a function of the pool

    What the store-level code computes, written on the contents of the
    pool: the entries of [grads] and the sequence of oracle calls. An
    entry is [None] when one of its two oracle calls raises. *)

Definition grad_entry (robot : Robot) (env : Env) (c : list F) (d : nat)
    : option F :=
  x ← c !! d;
  f_plus ← sdf robot (<[d := fadd x fh]> c) env;
  f_minus ← sdf robot (<[d := fsub x fh]> c) env;
  Some (fdiv (fsub f_plus f_minus) (fmul ftwo fh)).

Definition grad_row (robot : Robot) (env : Env) (c : list F)
    : option (list F) :=
  mapM (grad_entry robot env c) (seq 0 (length c)).

Definition ascent (learning_rate : F) (c g : list F) : list F :=
  zip_with fadd c ((λ x, fmul x learning_rate) <$> g).

Definition step_fun (robot : Robot) (env : Env) (learning_rate : F)
    (P : list (list F)) : option (list (list F)) :=
  mapM (λ c, sdf robot c env) P ;;
  grads ← mapM (grad_row robot env) P;
  Some (zip_with (ascent learning_rate) P grads).


Definition iter_opt {A} (n : nat) (f : A → option A) (x : A) : option A :=
  Nat.iter n (λ o, o ≫= f) (Some x).

(** The values [x, f x, ..] on which the first [n] iterations start, as far
    as they exist. *)
Definition visited {A} (n : nat) (f : A → option A) (x : A) : list A :=
  omap (λ t, iter_opt t f x) (seq 0 n).

(** The two oracle calls of lines 39 and 43 for candidate [i], dimension [d]. *)
Definition probe_pair (i : nat) (c : list F) (d : nat) : list sdf_call :=
  match c !! d with
  | Some x =>
      [ProbePlus i d (<[d := fadd x fh]> c); ProbeMinus i d (<[d := fsub x fh]> c)]
  | None => []
  end.

Definition probe_calls (i : nat) (c : list F) : list sdf_call :=
  seq 0 (length c) ≫= probe_pair i c.

(** The oracle calls of one completed step on the pool [P], in order. *)
Definition step_calls (P : list (list F)) : list sdf_call :=
  imap Baseline P ++ mjoin (imap probe_calls P).

(** The pool that lines 15 to 17 build from the contents of [q]. *)
Definition initial_pool (qv : list F) (noise_scale : F) : list (list F) :=
  zip_with (zip_with fadd) (replicate n_candidates qv)
    (uniform (fneg noise_scale) noise_scale n_candidates (length qv)
       (default_rng 42)).1.

(** ** The reference of the specification

    Sections 4.1 to 4.4 in the specification's words, for an oracle that
    always answers: gradients are computed from a snapshot of the pool that
    is never written to, then all candidates are updated. *)

(** [g[d] = (sdf(c with c[d]+h, env) - sdf(c with c[d]-h, env)) / (2h)] *)
Definition central_difference (f : list F → F) (c : list F) (d : nat) (x : F)
    : F :=
  fdiv (fsub (f (<[d := fadd x fh]> c)) (f (<[d := fsub x fh]> c)))
       (fmul ftwo fh).

Definition gradient_ref (f : list F → F) (c : list F) : list F :=
  imap (central_difference f c) c.





(** A robot whose oracle always answers. *)
Definition total_robot (f : list F → Env → F) : Robot :=
  mkRobot (λ c env, Some (f c env)).

(** A pool of [n_candidates] configurations of [dim] coordinates each. *)
Definition pool_shape (dim : nat) (P : list (list F)) : Prop :=
  length P = n_candidates ∧ Forall (λ c, length c = dim) P.

(** ** Reading outcomes *)

(** The pool a call returned, if it returned. *)
Definition result_pool (o : outcome loc) : option (list (list F)) :=
  match o with
  | Ret l w => match heap w !! l with Some (Mat P) => Some P | _ => None end
  | Raise _ _ => None
  end.

Definition final_world {A} (o : outcome A) : World :=
  match o with Ret _ w => w | Raise _ w => w end.


(** [w'] differs from [w] at most in the object at [a] and in oracle
    calls appended to the log. *)
Definition frame (a : loc) (w w' : World) : Prop :=
  (∀ l, l ≠ a → heap w' !! l = heap w !! l) ∧
  global_rng w' = global_rng w ∧
  ∃ cs, sdf_log w' = sdf_log w ++ cs.

End Model.

(** ** Sample collaborators

    Concrete robots, a generator and a world on which the statements below
    are evaluated. *)

(** A stand-in for numpy's generator: a linear congruential sequence modulo
    [2^32], scaled to [low + (high - low) * u] with [u] in [0, 1). *)
Definition lcg_next (s : Z) : Z :=
  ((1664525 * s + 1013904223) mod 4294967296)%Z.

Definition lcg_unit (s : Z) : float :=
  PrimFloat.div (PrimFloat.of_uint63 (Uint63.of_Z s)) 4294967296%float.

#[export] Instance lcg : Rng float Z := {
  default_rng seed := (seed mod 4294967296)%Z;
  uniform1 low high s :=
    let s' := lcg_next s in
    (PrimFloat.add low (PrimFloat.mul (PrimFloat.sub high low) (lcg_unit s')), s')
}.

Definition norm (c : list float) : float :=
  PrimFloat.sqrt (foldr (λ x acc, PrimFloat.add (PrimFloat.mul x x) acc) 0%float c).

(** The sphere of section 8 of the specification: [sdf(x) = |x| - r], the
    environment being the radius [r]. *)
Definition sphere_sdf (c : list float) (r : float) : float :=
  PrimFloat.sub (norm c) r.

Definition sphere : Robot (F := float) (Env := float) := total_robot sphere_sdf.

(** The same robot with [D] joints: it refuses a configuration of another
    length. *)
Definition sphere_dim (D : nat) : Robot (F := float) (Env := float) :=
  mkRobot (λ c r, if decide (length c = D) then Some (sphere_sdf c r) else None).

(** A world holding one configuration, at location 1. *)
Definition world_of (q : list float) : World (F := float) (G := Z) :=
  mkWorld {[ 1%positive := Vec q ]} [] 7%Z.

Definition q3 : list float := [0.1%float; 0%float; 0%float].

(** A world holding a pool of eight copies of [q3], at location 2. *)
Definition world_with_pool : World (F := float) (G := Z) :=
  mkWorld {[ 2%positive := Mat (replicate n_candidates q3) ]} [] 7%Z.


Definition q1 : list float := [0.1%float].


(** ** The benchmark of scripts/sdf_descent.py

    [bench] from line 123 on, for a robot module that exists and the
    environment built from the six spheres. The sampler [robot.halton()],
    the comparison [>= 0] and the literals of the calls are collaborators;
    elapsed time and the text of the printed lines are left out: a run ends
    with the three counters the last lines print, or with an exception. *)

Class Harness (F H : Type) := {
  halton_reset : H;                   (* robot.halton() after rng.reset() *)
  halton_next : H → list F * H;       (* rng.next() *)
  nonneg : F → bool;                  (* x >= 0 *)
  bench_learning_rate : F;            (* the literal 0.05 *)
  bench_noise_scale : F               (* the literal 0.1 *)
}.

(** What the interpreter can raise in [bench]: an exception that left
    [project_to_valid] or the oracle, or the division of lines 167 to 169. *)
Inductive py_exn := Uncaught (e : exn) | ZeroDivisionError.

Section Bench.
Context {F : Type} {SF : Scalar F} {G : Type} {RG : Rng F G} {Env : Type}.
Context {H : Type} {HF : Harness F H}.

Notation "x <- m ;; k" := (bind m (λ x, k))
  (at level 100, m at next level, right associativity).
Abbreviation Run := (M (F := F) (G := G)).

(** [initial_valid_count], [valid_count_10], [valid_count_100] *)
Record counts := mkCounts {
  initial_valid_count : nat;
  valid_count_10 : nat;
  valid_count_100 : nat
}.

Inductive bench_outcome :=
| Printed (c : counts) (w : World (F := F) (G := G))
| Failed (e : py_exn) (w : World (F := F) (G := G)).

(** A new object, as [rng.next()] returns one. *)
Definition alloc (o : obj (F := F)) : Run loc := λ w,
  let l := fresh (dom (heap w)) in Ret l (put l o w).

(** The rows of a two-dimensional array, as [for q in a] visits them. *)
Definition rows_of (a : loc) : Run (list (list F)) := λ w,
  match heap w !! a with
  | Some (Mat m) => Ret m w
  | _ => Raise TypeError w
  end.

(** [robot.sdf(c, env)] called by the benchmark itself; [sdf_log] records
    the calls made inside [project_to_valid] only. *)
Definition bench_sdf (robot : Robot) (env : Env) (c : list F) : Run F := λ w,
  match sdf robot c env with
  | Some v => Ret v w
  | None => Raise SdfError w
  end.

(** Lines 146 to 150 and 156 to 160: the loop that stops at the first
    candidate of non-negative distance. *)
Fixpoint found_valid (robot : Robot) (env : Env) (candidates : list (list F))
    : Run bool :=
  match candidates with
  | [] => ret false
  | q :: rest =>
      d <- bench_sdf robot env q ;;
      if nonneg d then ret true else found_valid robot env rest
  end.

(** A candidate whose distance the oracle gives and that is in collision. *)
Definition in_collision (robot : Robot) (env : Env) (p : list F) : Prop :=
  ∃ d, sdf robot p env = Some d ∧ nonneg d = false.

(** Lines 145 to 152 and 155 to 162: one solve and its check. *)
Definition solve_and_check (robot : Robot) (q_init : loc) (env : Env)
    (steps : Z) : Run bool :=
  candidates <- project_to_valid robot q_init env steps bench_learning_rate
                  bench_noise_scale ;;
  rows <- rows_of candidates ;;
  found_valid robot env rows.

Definition bump (b : bool) (n : nat) : nat := if b then S n else n.

(** Lines 137 to 162: the body of the loop over the samples. *)
Definition bench_sample (robot : Robot) (env : Env) (acc : H * counts)
    : Run (H * counts) :=
  let '(qv, rng) := halton_next acc.1 in
  q_init <- alloc (Vec qv) ;;
  d <- bench_sdf robot env qv ;;
  found_10 <- solve_and_check robot q_init env 10 ;;
  found_100 <- solve_and_check robot q_init env 100 ;;
  ret (rng,
       mkCounts (bump (nonneg d) (initial_valid_count acc.2))
                (bump found_10 (valid_count_10 acc.2))
                (bump found_100 (valid_count_100 acc.2))).

(** Lines 125 to 162. *)
Definition bench_loop (robot : Robot) (env : Env) (n_samples : Z)
    : Run (H * counts) :=
  for_fold (range n_samples) (λ i acc, bench_sample robot env acc)
    (halton_reset, mkCounts 0 0 0).

(** Lines 125 to 169: the loop, then the three lines that divide the
    counters by [n_samples]. *)
Definition bench (robot : Robot) (env : Env) (n_samples : Z)
    (w : World (F := F) (G := G)) : bench_outcome :=
  match bench_loop robot env n_samples w with
  | Ret acc w' =>
      if decide (n_samples = 0%Z) then Failed ZeroDivisionError w'
      else Printed acc.2 w'
  | Raise e w' => Failed (Uncaught e) w'
  end.

End Bench.

(** ** The solver benchmark of scripts/evaluate_sdf.py

    [benchmark_solver], the function nested in [main] (lines 77 to 109). It
    calls the solver of the native binding, [robot.project_to_valid], which
    is a collaborator as the sampler is. Elapsed time and the text printed
    are left out: a run ends with [n_bench], [valid_count] and the state of
    the sampler, or with an exception. *)

Class Native (F Env : Type) := {
  (* robot.project_to_valid(q, env, steps, learning_rate, noise_scale);
     None when the binding raises *)
  native_solve : list F → Env → Z → F → F → option (list (list F));
  eval_learning_rate : F              (* the literal 0.5 *)
}.

Inductive solver_exn := BindingError | DivisionByZero.

Section Evaluate.
Context {F : Type} {Env : Type} {H : Type} {HF : Harness F H} {NF : Native F Env}.

(** [for x in l: body], where the body answers [None] to [break]. *)
Fixpoint for_break {A S} (l : list A) (body : A → S → solver_exn + option S)
    (acc : S) : solver_exn + S :=
  match l with
  | [] => inr acc
  | x :: l' =>
      match body x acc with
      | inl e => inl e
      | inr None => inr acc
      | inr (Some acc') => for_break l' body acc'
      end
  end.

(** Lines 87 to 101: one pass of the loop, on the sampler and [valid_count]. *)
Definition solver_pass (env : Env) (steps : Z) (i : nat) (acc : H * nat)
    : solver_exn + option (H * nat) :=
  if decide (1000 ≤ i) then inr None
  else
    let '(q_init, rng) := halton_next acc.1 in
    match native_solve q_init env steps eval_learning_rate bench_noise_scale with
    | None => inl BindingError
    | Some candidates =>
        inr (Some (rng, if decide (0 < length candidates) then S acc.2 else acc.2))
    end.

(** Lines 77 to 109; the result is [(n_bench, valid_count, rng)]. *)
Definition benchmark_solver (env : Env) (n_samples steps : Z) (rng : H)
    : solver_exn + (Z * nat * H) :=
  match for_break (range (n_samples / 10)) (solver_pass env steps) (rng, 0) with
  | inl e => inl e
  | inr (rng', valid_count) =>
      let n_bench := Z.min (n_samples / 10) 1000 in
      if decide (n_bench = 0%Z) then inl DivisionByZero
      else inr (n_bench, valid_count, rng')
  end.

End Evaluate.

(** Stand-ins for the sampler and the comparison on binary64: two
    coordinates in [-0.5, 0.5) from the linear congruential sequence. *)
#[export] Instance bench64 : Harness float Z := {
  halton_reset := 0%Z;
  halton_next s :=
    let s1 := lcg_next s in
    let s2 := lcg_next s1 in
    ([PrimFloat.sub (lcg_unit s1) 0.5; PrimFloat.sub (lcg_unit s2) 0.5], s2);
  nonneg x := PrimFloat.leb 0 x;
  bench_learning_rate := 0.05%float;
  bench_noise_scale := 0.1%float
}.

(** A world without objects. *)
Definition world_empty : World (F := float) (G := Z) := mkWorld ∅ [] 7%Z.

(** * Properties *)

Section Facts.
Context {F : Type} {SF : Scalar F} {G : Type} {RG : Rng F G} {Env : Type}.
Implicit Types (w : World (F := F) (G := G)) (P : list (list F)) (a q : loc).

(** ** Worlds *)

Lemma put_put a (o1 o2 : obj) w : put a o2 (put a o1 w) = put a o2 w.
Proof. unfold put; simpl. by rewrite insert_insert_eq. Qed.

Lemma put_id a (o : obj) w : heap w !! a = Some o → put a o w = w.
Proof. destruct w as [h l g]; unfold put; simpl; intros H. by rewrite insert_id. Qed.

Lemma put_logs a (o : obj) cs w : put a o (logs cs w) = logs cs (put a o w).
Proof. done. Qed.

Lemma logs_logs cs1 cs2 w : logs cs2 (logs cs1 w) = logs (cs1 ++ cs2) w.
Proof. unfold logs; simpl. by rewrite <-(assoc_L (++)). Qed.

Lemma logs_nil w : logs [] w = w.
Proof. destruct w; unfold logs; simpl. by rewrite (right_id_L [] (++)). Qed.

Lemma heap_put a (o : obj) w : heap (put a o w) !! a = Some o.
Proof. apply lookup_insert_eq. Qed.

Lemma frame_refl a w : frame a w w.
Proof.
  split; [done|]. split; [done|]. exists []. by rewrite (right_id_L [] (++)).
Qed.

Lemma frame_trans a w1 w2 w3 : frame a w1 w2 → frame a w2 w3 → frame a w1 w3.
Proof.
  intros (H1 & G1 & cs1 & L1) (H2 & G2 & cs2 & L2). split; [|split].
  - intros l Hl. by rewrite H2, H1.
  - congruence.
  - exists (cs1 ++ cs2). by rewrite L2, L1, (assoc_L (++)).
Qed.

Lemma frame_logs a cs w : frame a w (logs cs w).
Proof. split; [done|]. split; [done|]. by exists cs. Qed.

Lemma frame_put a (o : obj) w : frame a w (put a o w).
Proof.
  split; [|split; [done|exists []; simpl; by rewrite (right_id_L [] (++))]].
  intros l Hl. simpl. by rewrite lookup_insert_ne.
Qed.

(** ** Loops *)

(** The invariant rule for [for_fold]: [I done acc w] holds when the
    elements [done] have been processed, [E] when the body raised. *)
Lemma for_fold_inv {A S} (I : list A → S → World → Prop) (E : exn → World → Prop)
    (body : A → S → M S) (l : list A) :
  (∀ done x rest acc w, l = done ++ x :: rest → I done acc w →
     match body x acc w with
     | Ret acc' w' => I (done ++ [x]) acc' w'
     | Raise e w' => E e w'
     end) →
  ∀ acc w, I [] acc w →
     match for_fold l body acc w with
     | Ret acc' w' => I l acc' w'
     | Raise e w' => E e w'
     end.
Proof.
  intros Hbody.
  cut (∀ rest done acc w, l = done ++ rest → I done acc w →
         match for_fold rest body acc w with
         | Ret acc' w' => I l acc' w'
         | Raise e w' => E e w'
         end).
  { intros H acc w. by apply (H l []). }
  induction rest as [|x rest IH]; intros done acc w Hl HI; simpl.
  - unfold ret. by rewrite Hl, (right_id_L [] (++)).
  - unfold bind. specialize (Hbody done x rest acc w Hl HI).
    destruct (body x acc w) as [acc' w'|e w']; [|done].
    apply (IH (done ++ [x])); [|done]. by rewrite <-(assoc_L (++)).
Qed.

Lemma seq_split n (done : list nat) x rest :
  seq 0 n = done ++ x :: rest → x = length done ∧ done = seq 0 x ∧ x < n.
Proof.
  intros H.
  assert (Hn : n = length done + S (length rest)).
  { apply (f_equal length) in H. rewrite length_seq, length_app in H. simpl in H. lia. }
  subst n. rewrite seq_app in H. simpl in H.
  apply app_inj_1 in H as [H1 H2]; [|by rewrite length_seq].
  injection H2 as H2 _. split; [done|]. split; [|lia]. by rewrite <-H2.
Qed.

(** ** Array primitives on a known pool *)

Lemma get_row_eq a i w P r :
  heap w !! a = Some (Mat P) → P !! i = Some r → get_row a i w = Ret r w.
Proof. intros Ha Hi. unfold get_row. by rewrite Ha, Hi. Qed.

Lemma set_item_eq a i d x w P r :
  heap w !! a = Some (Mat P) → P !! i = Some r → d < length r →
  set_item a i d x w = Ret () (put a (Mat (<[i := <[d := x]> r]> P)) w).
Proof.
  intros Ha Hi Hd. unfold set_item. rewrite Ha, Hi. by rewrite decide_True.
Qed.

Lemma iadd_row_eq a i delta w P r :
  heap w !! a = Some (Mat P) → P !! i = Some r → length r = length delta →
  iadd_row a i delta w = Ret () (put a (Mat (<[i := zip_with fadd r delta]> P)) w).
Proof.
  intros Ha Hi Hd. unfold iadd_row. rewrite Ha, Hi. by rewrite decide_True.
Qed.

Section Step_facts.
Variables (robot : Robot (F := F) (Env := Env)) (env : Env).

(** One pass of the loop over [d]: the two probes are written, the
    coordinate is restored, and the world is the one before the pass but
    for the two logged calls. *)
Lemma probe_run a i ci d x (grads : list (list F)) g w P :
  heap w !! a = Some (Mat P) → P !! i = Some ci → ci !! d = Some x →
  grads !! i = Some g → d < length g →
  probe robot env a i ci d grads w =
    match sdf robot (<[d := fadd x fh]> ci) env with
    | None =>
        Raise SdfError
          (logs [ProbePlus i d (<[d := fadd x fh]> ci)]
             (put a (Mat (<[i := <[d := fadd x fh]> ci]> P)) w))
    | Some f_plus =>
        match sdf robot (<[d := fsub x fh]> ci) env with
        | None =>
            Raise SdfError
              (logs (probe_pair i ci d)
                 (put a (Mat (<[i := <[d := fsub x fh]> ci]> P)) w))
        | Some f_minus =>
            Ret (<[i := <[d := fdiv (fsub f_plus f_minus) (fmul ftwo fh)]> g]> grads)
                (logs (probe_pair i ci d) w)
        end
    end.
Proof.
  intros Ha Hi Hx Hg Hd.
  assert (Hdl : d < length ci) by (by eapply lookup_lt_Some).
  assert (Hil : i < length P) by (by eapply lookup_lt_Some).
  unfold probe, bind, index, probe_pair. rewrite Hx. unfold ret at 1.
  rewrite (set_item_eq a i d _ w P ci) by done.
  set (w1 := put a (Mat (<[i := <[d := fadd x fh]> ci]> P)) w).
  rewrite (get_row_eq a i w1 (<[i := <[d := fadd x fh]> ci]> P) (<[d := fadd x fh]> ci));
    [|apply heap_put|by apply list_lookup_insert_eq].
  unfold call_sdf at 1.
  destruct (sdf robot (<[d := fadd x fh]> ci) env) as [fp|]; [|done].
  rewrite (set_item_eq a i d _ _ (<[i := <[d := fadd x fh]> ci]> P) (<[d := fadd x fh]> ci));
    [|apply heap_put|by apply list_lookup_insert_eq|by rewrite length_insert].
  rewrite list_insert_insert_eq, (list_insert_insert_eq ci).
  rewrite put_logs. unfold w1. rewrite put_put.
  set (w2 := put a (Mat (<[i := <[d := fsub x fh]> ci]> P)) w).
  rewrite (get_row_eq a i _ (<[i := <[d := fsub x fh]> ci]> P) (<[d := fsub x fh]> ci));
    [|apply heap_put|by apply list_lookup_insert_eq].
  unfold call_sdf. rewrite logs_logs. simpl.
  destruct (sdf robot (<[d := fsub x fh]> ci) env) as [fm|]; [|done].
  rewrite (set_item_eq a i d _ _ (<[i := <[d := fsub x fh]> ci]> P) (<[d := fsub x fh]> ci));
    [|apply heap_put|by apply list_lookup_insert_eq|by rewrite length_insert].
  rewrite list_insert_insert_eq, (list_insert_insert_eq ci).
  rewrite (list_insert_id ci d x) by done. rewrite (list_insert_id P i ci) by done.
  rewrite put_logs. unfold w2. rewrite put_put, (put_id a (Mat P) w) by done.
  unfold store2. rewrite Hg. by rewrite decide_True.
Qed.

Lemma mapM_snoc {A B} (f : A → option B) l k x y :
  mapM f l = Some k → f x = Some y → mapM f (l ++ [x]) = Some (k ++ [y]).
Proof.
  rewrite !mapM_Some. intros Hl Hx. apply Forall2_app; [done|]. by constructor.
Qed.

Lemma mapM_None_at {A B} (f : A → option B) l x :
  x ∈ l → f x = None → mapM f l = None.
Proof. intros Hin Hx. apply mapM_None_2, Exists_exists. eauto. Qed.

(** Lines 34 to 48 for one candidate: row [i] of [grads] becomes the
    gradient of the candidate, and the pool is as it was. *)
Lemma probe_loop_run a i ci (grads : list (list F)) g0 w P :
  heap w !! a = Some (Mat P) → P !! i = Some ci →
  grads !! i = Some g0 → length g0 = length ci →
  match for_fold (seq 0 (length ci)) (probe robot env a i ci) grads w with
  | Ret grads' w' =>
      ∃ gs, grad_row robot env ci = Some gs ∧ grads' = <[i := gs]> grads ∧
            w' = logs (probe_calls i ci) w
  | Raise e w' => e = SdfError ∧ grad_row robot env ci = None ∧ frame a w w'
  end.
Proof.
  intros Ha Hi Hg Hlen.
  assert (Hig : i < length grads) by (by eapply lookup_lt_Some).
  pose (I := λ (done : list nat) (acc : list (list F)) (w' : World),
    ∃ gs, mapM (grad_entry robot env ci) done = Some gs ∧
          acc = <[i := gs ++ drop (length done) g0]> grads ∧
          w' = logs (done ≫= probe_pair i ci) w).
  pose (E := λ (e : exn) (w' : World),
    e = SdfError ∧ grad_row robot env ci = None ∧ frame a w w').
  pose proof (for_fold_inv I E (probe robot env a i ci) (seq 0 (length ci))) as Hrule.
  assert (Hfin : match for_fold (seq 0 (length ci)) (probe robot env a i ci) grads w with
                 | Ret acc' w' => I (seq 0 (length ci)) acc' w'
                 | Raise e w' => E e w'
                 end).
  { apply Hrule.
    - intros done d rest acc w' Hsplit (gs & Hgs & -> & ->).
      apply seq_split in Hsplit as (Hd & _ & Hdlt).
      assert (Hgsl : length gs = d) by (apply length_mapM in Hgs; lia).
      destruct (lookup_lt_is_Some_2 ci d Hdlt) as [x Hx].
      destruct (lookup_lt_is_Some_2 g0 d ltac:(lia)) as [y Hy].
      assert (Hin : d ∈ seq 0 (length ci)) by (apply elem_of_seq; lia).
      rewrite (probe_run a i ci d x _ (gs ++ drop (length done) g0) _ P);
        [|done|done|done|by apply list_lookup_insert_eq
         |rewrite length_app, length_drop; lia].
      unfold grad_row.
      destruct (sdf robot (<[d := fadd x fh]> ci) env) as [fp|] eqn:Hp.
      2:{ split; [done|]. split.
          - apply (mapM_None_at _ _ d Hin). unfold grad_entry. rewrite Hx. simpl.
            by rewrite Hp.
          - eapply frame_trans; [apply frame_logs|].
            eapply frame_trans; [apply frame_put|apply frame_logs]. }
      destruct (sdf robot (<[d := fsub x fh]> ci) env) as [fm|] eqn:Hm.
      2:{ split; [done|]. split.
          - apply (mapM_None_at _ _ d Hin). unfold grad_entry. rewrite Hx. simpl.
            rewrite Hp. simpl. by rewrite Hm.
          - eapply frame_trans; [apply frame_logs|].
            eapply frame_trans; [apply frame_put|apply frame_logs]. }
      exists (gs ++ [fdiv (fsub fp fm) (fmul ftwo fh)]). split; [|split].
      + apply mapM_snoc; [done|]. unfold grad_entry. rewrite Hx. simpl.
        rewrite Hp. simpl. by rewrite Hm.
      + rewrite list_insert_insert_eq. f_equal.
        rewrite length_app. simpl. rewrite <-Hd.
        rewrite insert_app_r_alt by lia.
        rewrite (drop_S g0 y d Hy), Hgsl, Nat.sub_diag. simpl.
        rewrite <-(assoc_L (++)). simpl. do 3 f_equal. lia.
      + rewrite logs_logs. f_equal. rewrite bind_app. simpl.
        by rewrite (right_id_L [] (++)).
    - exists []. split; [done|]. split.
      + simpl. rewrite drop_0. by rewrite list_insert_id.
      + simpl. by rewrite logs_nil. }
  destruct (for_fold (seq 0 (length ci)) (probe robot env a i ci) grads w)
    as [acc' w'|e w']; [|done].
  destruct Hfin as (gs & Hgs & -> & ->). exists gs. split; [done|].
  split; [|done]. rewrite length_seq, <-Hlen, drop_all.
  by rewrite (right_id_L [] (++)).
Qed.

Lemma take_snoc {A} (l : list A) k x :
  l !! k = Some x → take (S k) l = take k l ++ [x].
Proof. intros H. by apply take_S_r. Qed.

Lemma imap_snoc {A B} (f : nat → A → B) (l : list A) x :
  imap f (l ++ [x]) = imap f l ++ [f (length l) x].
Proof. rewrite imap_app. simpl. by rewrite Nat.add_0_r. Qed.

(** Lines 21 to 23: one oracle call per candidate, nothing written to the
    pool. *)
Lemma compute_sdfs_run a w P :
  heap w !! a = Some (Mat P) → length P = n_candidates →
  match compute_sdfs robot env a w with
  | Ret dists w' =>
      mapM (λ c, sdf robot c env) P = Some dists ∧ w' = logs (imap Baseline P) w
  | Raise e w' =>
      e = SdfError ∧ mapM (λ c, sdf robot c env) P = None ∧ frame a w w'
  end.
Proof.
  intros Ha HK. unfold compute_sdfs.
  set (body := λ (i : nat) (dists : list F),
    bind (get_row a i) (λ ci, bind (call_sdf robot env (Baseline i) ci)
      (λ v, store dists i v))).
  pose (I := λ (done : list nat) (acc : list F) (w' : World),
    ∃ vs, mapM (λ c, sdf robot c env) (take (length done) P) = Some vs ∧
          acc = vs ++ replicate (n_candidates - length done) fzero ∧
          w' = logs (imap Baseline (take (length done) P)) w).
  pose (E := λ (e : exn) (w' : World),
    e = SdfError ∧ mapM (λ c, sdf robot c env) P = None ∧ frame a w w').
  assert (Hfin : match for_fold (seq 0 n_candidates) body (replicate n_candidates fzero) w with
                 | Ret acc' w' => I (seq 0 n_candidates) acc' w'
                 | Raise e w' => E e w'
                 end).
  { apply for_fold_inv.
    - intros done i rest acc w' Hsplit (vs & Hvs & -> & ->).
      apply seq_split in Hsplit as (Hi & _ & Hilt). rewrite <-Hi in *.
      assert (Hvl : length vs = i).
      { apply length_mapM in Hvs. rewrite length_take in Hvs. lia. }
      destruct (lookup_lt_is_Some_2 P i ltac:(lia)) as [ci Hci].
      unfold body, bind. rewrite (get_row_eq a i _ P ci) by done.
      unfold call_sdf. destruct (sdf robot ci env) as [v|] eqn:Hv.
      2:{ split; [done|]. split.
          - apply (mapM_None_at _ _ ci); [|done]. by eapply list_elem_of_lookup_2.
          - eapply frame_trans; apply frame_logs. }
      unfold store. rewrite decide_True
        by (rewrite length_app, length_replicate; lia).
      unfold ret. exists (vs ++ [v]).
      rewrite length_app. simpl. rewrite <-Hi, Nat.add_1_r.
      rewrite (take_snoc P i ci Hci). split; [|split].
      + by apply mapM_snoc.
      + rewrite insert_app_r_alt by lia. rewrite Hvl, Nat.sub_diag.
        replace (n_candidates - i) with (S (n_candidates - S i)) by lia.
        simpl. by rewrite <-(assoc_L (++)).
      + rewrite logs_logs. f_equal. rewrite imap_snoc.
        by rewrite length_take, Nat.min_l by lia.
    - exists []. split; [done|]. split; [done|]. simpl. by rewrite logs_nil. }
  destruct (for_fold (seq 0 n_candidates) body (replicate n_candidates fzero) w)
    as [acc' w'|e w']; [|done].
  destruct Hfin as (vs & Hvs & -> & ->).
  rewrite length_seq, <-HK, firstn_all in *. rewrite Nat.sub_diag. simpl.
  by rewrite (right_id_L [] (++)).
Qed.

Lemma grad_row_length (c g : list F) :
  grad_row robot env c = Some g → length g = length c.
Proof. intros H. apply length_mapM in H. by rewrite length_seq in H. Qed.

(** Lines 28 to 48: [grads] holds the gradient of every candidate and the
    pool is as it was before the block. *)
Lemma compute_grads_run a dim w P :
  heap w !! a = Some (Mat P) → length P = n_candidates →
  Forall (λ c, length c = dim) P →
  match compute_grads robot env a dim w with
  | Ret grads w' =>
      mapM (grad_row robot env) P = Some grads ∧
      w' = logs (mjoin (imap probe_calls P)) w
  | Raise e w' =>
      e = SdfError ∧ mapM (grad_row robot env) P = None ∧ frame a w w'
  end.
Proof.
  intros Ha HK Hdim. unfold compute_grads, bind at 1, zeros_like. rewrite Ha.
  set (G0 := (λ r : list F, replicate (length r) fzero) <$> P).
  set (body := λ (i : nat) (grads : list (list F)),
    bind (get_row a i) (λ original_q,
      for_fold (seq 0 dim) (probe robot env a i original_q) grads)).
  pose (I := λ (done : list nat) (acc : list (list F)) (w' : World),
    ∃ Gs, mapM (grad_row robot env) (take (length done) P) = Some Gs ∧
          acc = Gs ++ drop (length done) G0 ∧
          w' = logs (mjoin (imap probe_calls (take (length done) P))) w).
  pose (E := λ (e : exn) (w' : World),
    e = SdfError ∧ mapM (grad_row robot env) P = None ∧ frame a w w').
  assert (Hfin : match for_fold (seq 0 n_candidates) body G0 w with
                 | Ret acc' w' => I (seq 0 n_candidates) acc' w'
                 | Raise e w' => E e w'
                 end).
  { apply for_fold_inv.
    - intros done i rest acc w' Hsplit (Gs & HGs & -> & ->).
      apply seq_split in Hsplit as (Hi & _ & Hilt). rewrite <-Hi in *.
      assert (HGl : length Gs = i).
      { apply length_mapM in HGs. rewrite length_take in HGs. lia. }
      destruct (lookup_lt_is_Some_2 P i ltac:(lia)) as [ci Hci].
      assert (Hcd : length ci = dim).
      { by apply (Forall_lookup_1 (λ c, length c = dim) P i ci Hdim). }
      assert (HG0 : G0 !! i = Some (replicate (length ci) fzero)).
      { unfold G0. by rewrite list_lookup_fmap, Hci. }
      unfold body, bind. rewrite (get_row_eq a i _ P ci) by done.
      rewrite <-Hcd.
      pose proof (probe_loop_run a i ci (Gs ++ drop i G0)
        (replicate (length ci) fzero)
        (logs (mjoin (imap probe_calls (take i P))) w) P Ha Hci) as Hrun.
      destruct (for_fold (seq 0 (length ci)) (probe robot env a i ci)
                  (Gs ++ drop i G0) _) as [acc' w'|e w'].
      + destruct Hrun as (gs & Hgs & -> & ->).
        { rewrite lookup_app_r by lia. rewrite HGl, Nat.sub_diag.
          by rewrite lookup_drop, Nat.add_0_r. }
        { by rewrite length_replicate. }
        exists (Gs ++ [gs]). rewrite length_app. simpl. rewrite <-Hi, Nat.add_1_r.
        rewrite (take_snoc P i ci Hci). split; [|split].
        * by apply mapM_snoc.
        * rewrite insert_app_r_alt by lia. rewrite HGl, Nat.sub_diag.
          rewrite (drop_S G0 _ i HG0). simpl. by rewrite <-(assoc_L (++)).
        * rewrite logs_logs. f_equal. rewrite imap_snoc, join_app. simpl.
          rewrite (right_id_L [] (++)).
          by rewrite length_take, Nat.min_l by lia.
      + destruct Hrun as (-> & Hnone & Hfr).
        { rewrite lookup_app_r by lia. rewrite HGl, Nat.sub_diag.
          by rewrite lookup_drop, Nat.add_0_r. }
        { by rewrite length_replicate. }
        split; [done|]. split.
        * apply (mapM_None_at _ _ ci); [|done]. by eapply list_elem_of_lookup_2.
        * eapply frame_trans; [apply frame_logs|done].
    - exists []. split; [done|]. split; [done|]. simpl. by rewrite logs_nil. }
  fold body.
  destruct (for_fold (seq 0 n_candidates) body G0 w) as [acc' w'|e w']; [|done].
  destruct Hfin as (Gs & HGs & -> & ->).
  rewrite length_seq, <-HK, firstn_all in *.
  assert (Hl0 : length G0 = length P) by (unfold G0; by rewrite length_fmap).
  rewrite <-Hl0, drop_all, (right_id_L [] (++)). done.
Qed.

End Step_facts.

(** Lines 52 and 53: every candidate moves by its gradient times the
    learning rate. *)
Lemma apply_update_run a (grads : list (list F)) lr w P :
  heap w !! a = Some (Mat P) → length P = n_candidates →
  Forall2 (λ c g, length c = length g) P grads →
  apply_update a grads lr w = Ret () (put a (Mat (zip_with (ascent lr) P grads)) w).
Proof.
  intros Ha HK Hsh. unfold apply_update.
  assert (HKg : length grads = n_candidates) by (by rewrite <-(Forall2_length _ _ _ Hsh)).
  set (body := λ (i : nat) (_ : ()),
    bind (index grads i) (λ gi, iadd_row a i ((λ g, fmul g lr) <$> gi))).
  pose (I := λ (done : list nat) (_ : ()) (w' : World),
    w' = put a (Mat (zip_with (ascent lr) (take (length done) P)
                       (take (length done) grads) ++ drop (length done) P)) w).
  assert (Hfin : match for_fold (seq 0 n_candidates) body () w with
                 | Ret acc' w' => I (seq 0 n_candidates) acc' w'
                 | Raise e w' => False
                 end).
  { apply (for_fold_inv I (λ _ _, False)).
    - intros done i rest [] w' Hsplit ->.
      apply seq_split in Hsplit as (Hi & _ & Hilt). rewrite <-Hi in *.
      destruct (lookup_lt_is_Some_2 P i ltac:(lia)) as [ci Hci].
      destruct (lookup_lt_is_Some_2 grads i ltac:(lia)) as [gi Hgi].
      assert (Hcg : length ci = length gi).
      { by apply (Forall2_lookup_lr _ P grads i ci gi Hsh). }
      set (Z := zip_with (ascent lr) (take i P) (take i grads)).
      assert (HZ : length Z = i).
      { unfold Z. rewrite length_zip_with, !length_take. lia. }
      unfold body, bind, index. rewrite Hgi. unfold ret at 1.
      rewrite (iadd_row_eq a i _ _ (Z ++ drop i P) ci);
        [|apply heap_put
         |rewrite lookup_app_r by lia; by rewrite HZ, Nat.sub_diag, lookup_drop, Nat.add_0_r
         |by rewrite length_fmap].
      unfold I. rewrite put_put, length_app. simpl. rewrite <-Hi, Nat.add_1_r.
      do 2 f_equal.
      rewrite (take_snoc P i ci Hci), (take_snoc grads i gi Hgi).
      rewrite zip_with_app by (rewrite !length_take; lia). fold Z. simpl.
      rewrite insert_app_r_alt by lia. rewrite HZ, Nat.sub_diag.
      rewrite (drop_S P ci i Hci). simpl. by rewrite <-(assoc_L (++)).
    - unfold I. simpl. rewrite drop_0. by rewrite put_id. }
  fold body.
  destruct (for_fold (seq 0 n_candidates) body () w) as [[] w'|e w']; [|done].
  unfold I in Hfin. rewrite length_seq in Hfin. rewrite Hfin.
  rewrite <-HK at 1 3. rewrite <-HKg. rewrite !firstn_all, drop_all.
  by rewrite (right_id_L [] (++)).
Qed.

Lemma grads_shape (robot : Robot) (env : Env) P (grads : list (list F)) :
  mapM (grad_row robot env) P = Some grads →
  Forall2 (λ c g, length c = length g) P grads.
Proof.
  intros H. apply mapM_Some_1 in H. eapply Forall2_impl; [done|].
  intros c g Hg. simpl in Hg. symmetry. by eapply grad_row_length.
Qed.

(** Lines 20 to 53: one step replaces the pool [P] by [step_fun P] and
    makes the calls [step_calls P]; it raises exactly when the oracle does. *)
Lemma descent_step_run (robot : Robot) (env : Env) a dim lr w P :
  heap w !! a = Some (Mat P) → length P = n_candidates →
  Forall (λ c, length c = dim) P →
  match descent_step robot env a dim lr w with
  | Ret _ w' =>
      ∃ P', step_fun robot env lr P = Some P' ∧
            w' = logs (step_calls P) (put a (Mat P') w)
  | Raise e w' =>
      e = SdfError ∧ step_fun robot env lr P = None ∧ frame a w w'
  end.
Proof.
  intros Ha HK Hdim. unfold descent_step, bind, step_fun.
  pose proof (compute_sdfs_run robot env a w P Ha HK) as H1.
  destruct (compute_sdfs robot env a w) as [dists w1|e w1].
  2:{ destruct H1 as (-> & -> & Hfr). done. }
  destruct H1 as (-> & ->). simpl.
  pose proof (compute_grads_run robot env a dim (logs (imap Baseline P) w) P Ha HK Hdim) as H2.
  destruct (compute_grads robot env a dim _) as [grads w2|e w2].
  2:{ destruct H2 as (-> & -> & Hfr). split; [done|]. split; [done|].
      eapply frame_trans; [apply frame_logs|done]. }
  destruct H2 as (Hg & ->). rewrite Hg. simpl.
  rewrite (apply_update_run a grads lr _ P); [|done|done|by eapply grads_shape].
  eexists. split; [done|]. rewrite logs_logs. by rewrite put_logs.
Qed.


(** ** Shapes *)

Lemma ascent_length lr (c g : list F) :
  length c = length g → length (ascent lr c g) = length c.
Proof. intros H. unfold ascent. rewrite length_zip_with, length_fmap. lia. Qed.

Lemma zip_ascent_shape lr dim P (grads : list (list F)) :
  Forall2 (λ c g, length c = length g) P grads → pool_shape dim P →
  pool_shape dim (zip_with (ascent lr) P grads).
Proof.
  intros Hsh [HK Hdim]. split.
  - rewrite length_zip_with, <-(Forall2_length _ _ _ Hsh). lia.
  - clear HK. induction Hsh as [|c g P' grads' Hcg _ IH]; simpl; [done|].
    inversion Hdim as [|? ? Hc Hrest]; subst. constructor; [|by apply IH].
    by rewrite ascent_length.
Qed.

Lemma step_fun_shape (robot : Robot) (env : Env) lr dim P P' :
  step_fun robot env lr P = Some P' → pool_shape dim P → pool_shape dim P'.
Proof.
  unfold step_fun. intros H Hsh.
  destruct (mapM (λ c, sdf robot c env) P); [|done]. simpl in H.
  destruct (mapM (grad_row robot env) P) as [grads|] eqn:Hg; [|done].
  simpl in H. injection H as <-. apply zip_ascent_shape; [|done].
  by eapply grads_shape.
Qed.


Lemma draw_row_length (low high : F) n (g : G) :
  length (draw_row low high n g).1 = n.
Proof.
  revert g. induction n as [|n IH]; intros g; simpl; [done|].
  destruct (uniform1 low high g) as [x g1]. specialize (IH g1).
  destruct (draw_row low high n g1) as [r g2]. simpl in *. by rewrite IH.
Qed.

Lemma uniform_shape (low high : F) k n (g : G) :
  shape (uniform low high k n g).1 = replicate k n.
Proof.
  revert g. induction k as [|k IH]; intros g; simpl; [done|].
  pose proof (draw_row_length low high n g) as Hr.
  destruct (draw_row low high n g) as [r g1]. specialize (IH g1).
  destruct (uniform low high k n g1) as [m g2]. simpl in *. by rewrite Hr, IH.
Qed.

Lemma shape_replicate k (v : list F) : shape (replicate k v) = replicate k (length v).
Proof. unfold shape. by rewrite fmap_replicate. Qed.

Lemma shape_zip_with (f : list F → list F → list F) P (N : list (list F)) :
  (∀ c n, length c = length n → length (f c n) = length c) →
  shape P = shape N → shape (zip_with f P N) = shape P.
Proof.
  intros Hf. revert N. induction P as [|c P IH]; intros [|n N] H; simpl in *; try done.
  injection H as Hc HP. f_equal; [by apply Hf|by apply IH].
Qed.

Lemma pool_shape_of_shape dim P : shape P = replicate n_candidates dim → pool_shape dim P.
Proof.
  intros H. split.
  - apply (f_equal length) in H. unfold shape in H.
    by rewrite length_fmap, length_replicate in H.
  - apply Forall_forall. intros c Hc.
    assert (Hin : length c ∈ shape P) by (unfold shape; by apply list_elem_of_fmap_2).
    rewrite H in Hin. by apply elem_of_replicate in Hin as [? _].
Qed.

Lemma initial_pool_shape (qv : list F) ns : pool_shape (length qv) (initial_pool qv ns).
Proof.
  apply pool_shape_of_shape. unfold initial_pool.
  rewrite shape_zip_with.
  - apply shape_replicate.
  - intros c n Hcn. rewrite length_zip_with. lia.
  - by rewrite shape_replicate, uniform_shape.
Qed.

(** Lines 7 to 17: a new array holds the noisy copies; nothing else
    changes. *)
Lemma init_candidates_run q ns w (qv : list F) :
  heap w !! q = Some (Vec qv) →
  init_candidates q ns w =
    Ret (fresh (dom (heap w)), length qv)
        (put (fresh (dom (heap w))) (Mat (initial_pool qv ns)) w).
Proof.
  intros Hq. unfold init_candidates, bind, len, np_tile. rewrite Hq.
  cbv beta iota zeta. rewrite Hq. unfold iadd. rewrite heap_put.
  rewrite decide_True by (by rewrite shape_replicate, uniform_shape).
  by rewrite put_put.
Qed.

(** ** The loop over [step] *)

Lemma iter_opt_S {A} n (f : A → option A) x :
  iter_opt (S n) f x = iter_opt n f x ≫= f.
Proof. done. Qed.

Lemma iter_opt_None_le {A} n m (f : A → option A) x :
  n ≤ m → iter_opt n f x = None → iter_opt m f x = None.
Proof.
  induction 1 as [|m _ IH]; [done|]. intros H. rewrite iter_opt_S.
  by rewrite (IH H).
Qed.

Lemma visited_S_Some {A} n (f : A → option A) x y :
  iter_opt n f x = Some y → visited (S n) f x = visited n f x ++ [y].
Proof.
  intros H. unfold visited. rewrite seq_S, omap_app. simpl. by rewrite H.
Qed.

(** Any loop body that acts on the pool as a function [sf] does, iterated:
    shared by the function and by its variant without baseline. *)
Lemma step_loop_run (step : M unit) (sf : list (list F) → option (list (list F)))
    (calls : list (list F) → list sdf_call) a dim n w P0 :
  (∀ w P, heap w !! a = Some (Mat P) → pool_shape dim P →
     match step w with
     | Ret _ w' => ∃ P', sf P = Some P' ∧ w' = logs (calls P) (put a (Mat P') w)
     | Raise e w' => e = SdfError ∧ sf P = None ∧ frame a w w'
     end) →
  (∀ P P', sf P = Some P' → pool_shape dim P → pool_shape dim P') →
  heap w !! a = Some (Mat P0) → pool_shape dim P0 →
  match for_fold (seq 0 n) (λ _ _, step) () w with
  | Ret _ w' =>
      ∃ Pn, iter_opt n sf P0 = Some Pn ∧ pool_shape dim Pn ∧
            w' = logs (mjoin (calls <$> visited n sf P0)) (put a (Mat Pn) w)
  | Raise e w' => e = SdfError ∧ iter_opt n sf P0 = None ∧ frame a w w'
  end.
Proof.
  intros Hstep Hshape Ha Hsh0.
  pose (I := λ (done : list nat) (_ : ()) (w' : World),
    ∃ Pk, iter_opt (length done) sf P0 = Some Pk ∧ pool_shape dim Pk ∧
          w' = logs (mjoin (calls <$> visited (length done) sf P0)) (put a (Mat Pk) w)).
  pose (E := λ (e : exn) (w' : World),
    e = SdfError ∧ iter_opt n sf P0 = None ∧ frame a w w').
  assert (Hfin : match for_fold (seq 0 n) (λ _ _, step) () w with
                 | Ret acc' w' => I (seq 0 n) acc' w'
                 | Raise e w' => E e w'
                 end).
  { apply for_fold_inv.
    - intros done k rest [] w' Hsplit (Pk & Hk & Hshk & ->).
      apply seq_split in Hsplit as (Hlen & _ & Hlt). rewrite <-Hlen in *.
      specialize (Hstep (logs (mjoin (calls <$> visited k sf P0)) (put a (Mat Pk) w))
                    Pk (heap_put a _ w) Hshk).
      destruct (step _) as [[] w''|e w''].
      + destruct Hstep as (P' & HP' & ->). exists P'.
        rewrite length_app. simpl. rewrite <-Hlen, Nat.add_1_r.
        split; [by rewrite iter_opt_S, Hk|]. split; [by eapply Hshape|].
        rewrite (visited_S_Some k sf P0 Pk Hk), fmap_app, join_app. simpl.
        rewrite (right_id_L [] (++)), put_logs, logs_logs. by rewrite put_put.
      + destruct Hstep as (-> & Hnone & Hfr). split; [done|]. split.
        * apply (iter_opt_None_le (S k)); [lia|]. by rewrite iter_opt_S, Hk.
        * eapply frame_trans; [|done].
          eapply frame_trans; [apply frame_put|apply frame_logs].
    - exists P0. split; [done|]. split; [done|]. simpl.
      by rewrite logs_nil, put_id. }
  destruct (for_fold (seq 0 n) (λ _ _, step) () w) as [[] w'|e w']; [|done].
  destruct Hfin as (Pn & Hn & Hshn & ->). rewrite length_seq in *. eauto.
Qed.

(** The whole call, for any oracle: the new array [a] holds the result of
    iterating [step_fun] on the initial pool, or the call raises because
    the oracle did. *)
Lemma project_to_valid_run (robot : Robot) q (env : Env) steps lr ns w (qv : list F) :
  heap w !! q = Some (Vec qv) →
  match project_to_valid robot q env steps lr ns w with
  | Ret l w' =>
      l = fresh (dom (heap w)) ∧
      ∃ Pn, iter_opt (Z.to_nat steps) (step_fun robot env lr) (initial_pool qv ns) = Some Pn ∧
            pool_shape (length qv) Pn ∧
            w' = logs (mjoin (step_calls <$>
                        visited (Z.to_nat steps) (step_fun robot env lr) (initial_pool qv ns)))
                   (put l (Mat Pn) w)
  | Raise e w' =>
      e = SdfError ∧
      iter_opt (Z.to_nat steps) (step_fun robot env lr) (initial_pool qv ns) = None ∧
      frame (fresh (dom (heap w))) w w'
  end.
Proof.
  intros Hq. unfold project_to_valid, bind at 1.
  rewrite (init_candidates_run q ns w qv Hq). unfold bind, range.
  set (a := fresh (dom (heap w))).
  pose proof (step_loop_run (descent_step robot env a (length qv) lr)
    (step_fun robot env lr) step_calls a (length qv) (Z.to_nat steps)
    (put a (Mat (initial_pool qv ns)) w) (initial_pool qv ns)) as H.
  destruct (for_fold _ _ _ _) as [[] w'|e w'].
  - destruct H as (Pn & Hn & Hshn & ->).
    + intros w1 P H1 [HK Hd]. by apply descent_step_run.
    + intros P P'. apply step_fun_shape.
    + apply heap_put.
    + apply initial_pool_shape.
    + unfold ret. split; [done|]. exists Pn. by rewrite put_put.
  - destruct H as (-> & Hnone & Hfr).
    + intros w1 P H1 [HK Hd]. by apply descent_step_run.
    + intros P P'. apply step_fun_shape.
    + apply heap_put.
    + apply initial_pool_shape.
    + split; [done|]. split; [done|]. eapply frame_trans; [apply frame_put|done].
Qed.


(** ** An oracle that always answers *)

Lemma mapM_total {A B} (f : A → B) (l : list A) :
  mapM (λ x, Some (f x)) l = Some (f <$> l).
Proof. apply mapM_Some_2. induction l; simpl; by constructor. Qed.

Lemma grad_row_total (f : list F → Env → F) (env : Env) (c : list F) :
  grad_row (total_robot f) env c = Some (gradient_ref (λ c', f c' env) c).
Proof.
  unfold grad_row, gradient_ref. apply mapM_Some_2.
  apply Forall2_same_length_lookup_2.
  - by rewrite length_seq, length_imap.
  - intros d d' g Hd Hg. apply lookup_seq in Hd as [Hd Hlt]. simpl in Hd.
    subst d'. rewrite list_lookup_imap in Hg.
    destruct (c !! d) as [x|] eqn:Hx; simpl in Hg; [|done].
    injection Hg as <-. unfold grad_entry. by rewrite Hx.
Qed.






(** ** The whole call *)

Lemma project_to_valid_result (robot : Robot) q (env : Env) steps lr ns w (qv : list F) :
  heap w !! q = Some (Vec qv) →
  result_pool (project_to_valid robot q env steps lr ns w) =
    iter_opt (Z.to_nat steps) (step_fun robot env lr) (initial_pool qv ns).
Proof.
  intros Hq. pose proof (project_to_valid_run robot q env steps lr ns w qv Hq) as H.
  destruct (project_to_valid _ _ _ _ _ _ _) as [l w'|e w']; simpl.
  - destruct H as (-> & Pn & Hn & _ & ->). simpl. by rewrite lookup_insert_eq.
  - by destruct H as (_ & -> & _).
Qed.


End Facts.

(** * The claims *)

Section Claim_synchronous.
Context {F : Type} {SF : Scalar F} {G : Type} {RG : Rng F G} {Env : Type}.


End Claim_synchronous.


Section Claim_gradient.
Context {F : Type} {SF : Scalar F} {G : Type} {RG : Rng F G} {Env : Type}.

(** C2. Central difference: run on a pool [P] with an oracle that always
    answers, lines 28 to 48 return an array [grads] whose entry [(i, d)] is
    [(sdf(c with c[d]+h) - sdf(c with c[d]-h)) / (2h)] for the candidate
    [c = P[i]], with [h] the literal [1e-4]; the two configurations passed
    to the oracle differ from [c] in coordinate [d] only, and they are the
    calls the oracle received. *)
Theorem central_difference_gradient (f : list F → Env → F) (env : Env) (a : loc)
    (dim : nat) (w : World (F := F) (G := G)) (P : list (list F)) :
  heap w !! a = Some (Mat P) → pool_shape dim P →
  ∃ grads w',
    compute_grads (total_robot f) env a dim w = Ret grads w' ∧
    sdf_log w' = sdf_log w ++ mjoin (imap probe_calls P) ∧
    ∀ i c d x, P !! i = Some c → c !! d = Some x →
      probe_pair i c d =
        [ProbePlus i d (<[d := fadd x fh]> c); ProbeMinus i d (<[d := fsub x fh]> c)] ∧
      grads !! i ≫= (.!! d) =
        Some (fdiv (fsub (f (<[d := fadd x fh]> c) env) (f (<[d := fsub x fh]> c) env))
                (fmul ftwo fh)).
Proof.
  intros Ha [HK Hd].
  pose proof (compute_grads_run (total_robot f) env a dim w P Ha HK Hd) as H.
  rewrite (mapM_ext _ (λ c, Some (gradient_ref (λ c', f c' env) c))) in H
    by (intros c; apply grad_row_total).
  rewrite mapM_total in H.
  destruct (compute_grads _ _ _ _ _) as [grads w'|e w'].
  2:{ by destruct H as (_ & ? & _). }
  destruct H as (Hg & ->). injection Hg as <-.
  eexists _, _. split; [done|]. split; [done|].
  intros i c d x Hi Hx. split.
  - unfold probe_pair. by rewrite Hx.
  - rewrite list_lookup_fmap, Hi. simpl. unfold gradient_ref.
    rewrite list_lookup_imap, Hx. done.
Qed.

End Claim_gradient.

Lemma central_difference_gradient_witness :
  ∃ grads w',
    compute_grads sphere 0.2%float 2%positive 3 world_with_pool = Ret grads w' ∧
    grads !! 0 ≫= (.!! 0) =
      Some (PrimFloat.div
              (PrimFloat.sub (sphere_sdf (<[0 := PrimFloat.add 0.1 fh]> q3) 0.2)
                             (sphere_sdf (<[0 := PrimFloat.sub 0.1 fh]> q3) 0.2))
              (PrimFloat.mul 2 fh)).
Proof.
  destruct (central_difference_gradient sphere_sdf 0.2%float 2%positive 3
              world_with_pool (replicate n_candidates q3))
    as (grads & w' & Hrun & _ & Hentry).
  - reflexivity.
  - split; [reflexivity|]. repeat constructor.
  - exists grads, w'. split; [exact Hrun|].
    exact (proj2 (Hentry 0 q3 0 0.1%float eq_refl eq_refl)).
Defined.

Section Claim_deterministic.
Context {F : Type} {SF : Scalar F} {G : Type} {RG : Rng F G} {Env : Type}.


End Claim_deterministic.


Section Claim_zero_steps.
Context {F : Type} {SF : Scalar F} {G : Type} {RG : Rng F G} {Env : Type}.


End Claim_zero_steps.


Section Claim_shape.
Context {F : Type} {SF : Scalar F} {G : Type} {RG : Rng F G} {Env : Type}.



End Claim_shape.


Section Claim_frame.
Context {F : Type} {SF : Scalar F} {G : Type} {RG : Rng F G} {Env : Type}.

(** C10. The caller's configuration: after the call, returned or raised,
    the object [q] holds the values it held before; the array returned is
    a new object, distinct from [q] and from every object that existed
    before the call, and no object that existed before has changed. *)
Theorem seed_configuration_untouched (robot : Robot (F := F) (Env := Env))
    (q : loc) (env : Env) (steps : Z) (lr ns : F) (w : World (F := F) (G := G))
    (qv : list F) :
  heap w !! q = Some (Vec qv) →
  heap (final_world (project_to_valid robot q env steps lr ns w)) !! q =
    Some (Vec qv) ∧
  match project_to_valid robot q env steps lr ns w with
  | Ret l w' =>
      l ≠ q ∧ heap w !! l = None ∧ ∀ l', l' ≠ l → heap w' !! l' = heap w !! l'
  | Raise _ _ => True
  end.
Proof.
  intros Hq.
  assert (Hfresh : heap w !! fresh (dom (heap w)) = None).
  { apply not_elem_of_dom, is_fresh. }
  assert (Hne : q ≠ fresh (dom (heap w))).
  { intros ->. by rewrite Hfresh in Hq. }
  pose proof (project_to_valid_run robot q env steps lr ns w qv Hq) as H.
  destruct (project_to_valid _ _ _ _ _ _ _) as [l w'|e w']; simpl.
  - destruct H as (-> & Pn & _ & _ & ->). simpl. split; [|split; [done|split; [done|]]].
    + by rewrite lookup_insert_ne.
    + intros l' Hl'. by rewrite lookup_insert_ne.
  - destruct H as (_ & _ & Hfr & _). split; [|done]. by rewrite Hfr.
Qed.

End Claim_frame.

Lemma seed_configuration_untouched_witness :
  heap (final_world (project_to_valid sphere 1%positive 0.2%float 5 0.05%float
                       0.01%float (world_of q3))) !! 1%positive = Some (Vec q3).
Proof.
  pose proof (seed_configuration_untouched sphere 1%positive 0.2%float 5
                0.05%float 0.01%float (world_of q3) q3 eq_refl) as H.
  destruct H as [H _]. exact H.
Defined.

Section Claim_baseline.
Context {F : Type} {SF : Scalar F} {G : Type} {RG : Rng F G} {Env : Type}.





End Claim_baseline.


Section Claim_budget.
Context {F : Type} {SF : Scalar F} {G : Type} {RG : Rng F G} {Env : Type}.







End Claim_budget.


Section Claim_zero_rate.
Context {F : Type} {SF : Scalar F} {G : Type} {RG : Rng F G} {Env : Type}.





End Claim_zero_rate.



Section Claim_mismatch.
Context {F : Type} {SF : Scalar F} {G : Type} {RG : Rng F G} {Env : Type}.



End Claim_mismatch.



(** * Further properties of [project_to_valid] *)

Section More_project_to_valid.
Context {F : Type} {SF : Scalar F} {G : Type} {RG : Rng F G} {Env : Type}.

Lemma grad_row_answers (robot : Robot (F := F) (Env := Env)) env (c : list F) :
  (∀ c', length c' = length c → is_Some (sdf robot c' env)) →
  is_Some (grad_row robot env c).
Proof.
  intros Hans. unfold grad_row. apply mapM_is_Some_2, Forall_forall.
  intros d Hd. apply elem_of_seq in Hd as [_ Hd]. simpl in Hd.
  destruct (lookup_lt_is_Some_2 c d Hd) as [x Hx].
  unfold compose, grad_entry. rewrite Hx. simpl.
  destruct (Hans (<[d := fadd x fh]> c)) as [fp ->]; [by rewrite length_insert|].
  destruct (Hans (<[d := fsub x fh]> c)) as [fm ->]; [by rewrite length_insert|].
  by eexists.
Qed.

Lemma step_fun_answers (robot : Robot (F := F) (Env := Env)) env lr dim
    (P : list (list F)) :
  (∀ c, length c = dim → is_Some (sdf robot c env)) →
  pool_shape dim P → is_Some (step_fun robot env lr P).
Proof.
  intros Hans [_ Hd]. unfold step_fun.
  destruct (mapM_is_Some_2 (λ c, sdf robot c env) P) as [dists ->].
  { eapply Forall_impl; [exact Hd|]. intros c Hc. by apply Hans. }
  destruct (mapM_is_Some_2 (grad_row robot env) P) as [grads ->].
  { eapply Forall_impl; [exact Hd|]. intros c Hc. apply grad_row_answers.
    intros c' Hc'. apply Hans. by rewrite Hc'. }
  by eexists.
Qed.

Lemma iter_opt_shape (robot : Robot (F := F) (Env := Env)) env lr dim n
    (P Pn : list (list F)) :
  iter_opt n (step_fun robot env lr) P = Some Pn →
  pool_shape dim P → pool_shape dim Pn.
Proof.
  intros Hn Hsh. revert Pn Hn. induction n as [|n IH]; intros Pn Hn.
  - by injection Hn as <-.
  - rewrite iter_opt_S in Hn.
    destruct (iter_opt n _ P) as [Pm|] eqn:Hm; [|done]. simpl in Hn.
    apply (step_fun_shape robot env lr dim Pm Pn Hn), (IH Pm eq_refl).
Qed.

Lemma iter_opt_answers (robot : Robot (F := F) (Env := Env)) env lr dim n
    (P : list (list F)) :
  (∀ c, length c = dim → is_Some (sdf robot c env)) →
  pool_shape dim P → is_Some (iter_opt n (step_fun robot env lr) P).
Proof.
  intros Hans Hsh. induction n as [|n IH]; [by eexists|].
  rewrite iter_opt_S. destruct IH as [Pn Hn]. rewrite Hn. simpl.
  apply (step_fun_answers robot env lr dim); [done|].
  by apply (iter_opt_shape robot env lr dim n P Pn).
Qed.

(** X1. The only exception the call raises is the oracle's: no access of
    its own to [candidates], [grads], [dists] or [original_q] is out of
    range and no shapes mismatch. If the oracle answers on every
    configuration with as many coordinates as [q], the call returns. *)
Theorem only_oracle_errors (robot : Robot (F := F) (Env := Env)) (q : loc)
    (env : Env) (steps : Z) (lr ns : F) (w : World (F := F) (G := G))
    (qv : list F) :
  heap w !! q = Some (Vec qv) →
  (∀ e w', project_to_valid robot q env steps lr ns w = Raise e w' →
           e = SdfError) ∧
  ((∀ c, length c = length qv → is_Some (sdf robot c env)) →
   ∃ l w', project_to_valid robot q env steps lr ns w = Ret l w').
Proof.
  intros Hq.
  pose proof (project_to_valid_run robot q env steps lr ns w qv Hq) as H.
  split.
  - intros e w' Hrun. rewrite Hrun in H. by destruct H as [-> _].
  - intros Hans.
    destruct (project_to_valid _ _ _ _ _ _ _) as [l w'|e w']; [by eexists _, _|].
    destruct H as (_ & Hnone & _).
    destruct (iter_opt_answers robot env lr (length qv) (Z.to_nat steps)
                (initial_pool qv ns) Hans (initial_pool_shape qv ns)) as [P HP].
    by rewrite HP in Hnone.
Qed.


End More_project_to_valid.

Lemma only_oracle_errors_witness :
  ∃ l w', project_to_valid (sphere_dim 3) 1%positive 0.2%float 2 0.05%float
            0.01%float (world_of q3) = Ret l w'.
Proof.
  pose proof (only_oracle_errors (sphere_dim 3) 1%positive 0.2%float 2 0.05%float
                0.01%float (world_of q3) q3 eq_refl) as H.
  destruct H as [_ H]. apply H.
  intros c Hc. simpl. rewrite decide_True by exact Hc. by eexists.
Defined.


Section Compose_and_count.
Context {F : Type} {SF : Scalar F} {G : Type} {RG : Rng F G} {Env : Type}.

Lemma iter_opt_add {A} m n (f : A → option A) x :
  iter_opt (n + m) f x = iter_opt m f x ≫= iter_opt n f.
Proof.
  induction n as [|n IH]; simpl.
  - by destruct (iter_opt m f x).
  - change (iter_opt (S (n + m)) f x) with (iter_opt (n + m) f x ≫= f).
    rewrite IH. by destruct (iter_opt m f x) as [y|].
Qed.

(** X3. Steps compose: for [m, n >= 0] the pool a call with [m + n] steps
    returns is the pool obtained by running the loop body [n] more times
    on the array that a call with [m] steps returned; and if the call with
    [m] steps raises, so does the call with [m + n] steps. *)
Theorem steps_compose (robot : Robot (F := F) (Env := Env)) (q : loc)
    (env : Env) (m n : Z) (lr ns : F) (w : World (F := F) (G := G))
    (qv : list F) :
  heap w !! q = Some (Vec qv) → (0 ≤ m)%Z → (0 ≤ n)%Z →
  result_pool (project_to_valid robot q env (m + n) lr ns w) =
    match project_to_valid robot q env m lr ns w with
    | Ret l w' =>
        result_pool
          (bind (for_fold (range n)
                   (λ step _, descent_step robot env l (length qv) lr) ())
                (λ _, ret l) w')
    | Raise _ _ => None
    end.
Proof.
  intros Hq Hm Hn.
  rewrite (project_to_valid_result robot q env (m + n) lr ns w qv Hq).
  replace (Z.to_nat (m + n)) with (Z.to_nat n + Z.to_nat m) by lia.
  rewrite iter_opt_add.
  pose proof (project_to_valid_run robot q env m lr ns w qv Hq) as H.
  destruct (project_to_valid robot q env m lr ns w) as [l w'|e w'].
  2:{ destruct H as (_ & -> & _). done. }
  destruct H as (-> & Pm & -> & Hsh & ->). simpl.
  set (a := fresh (dom (heap w))). set (w1 := logs _ (put a (Mat Pm) w)).
  pose proof (step_loop_run (descent_step robot env a (length qv) lr)
    (step_fun robot env lr) step_calls a (length qv) (Z.to_nat n) w1 Pm) as H.
  unfold bind, range.
  destruct (for_fold _ _ _ _) as [[] w2|e w2].
  - destruct H as (Pn & -> & _ & ->).
    + intros w3 P H3 [HK Hd]. by apply descent_step_run.
    + intros P P'. apply step_fun_shape.
    + apply heap_put.
    + done.
    + simpl. by rewrite insert_insert_eq, lookup_insert_eq.
  - destruct H as (_ & -> & _).
    + intros w3 P H3 [HK Hd]. by apply descent_step_run.
    + intros P P'. apply step_fun_shape.
    + apply heap_put.
    + done.
    + done.
Qed.






End Compose_and_count.

Lemma steps_compose_witness :
  result_pool (project_to_valid sphere 1%positive 0.2%float (2 + 1) 0.05%float
                 0.01%float (world_of q3)) =
    match project_to_valid sphere 1%positive 0.2%float 2 0.05%float 0.01%float
            (world_of q3) with
    | Ret l w' =>
        result_pool
          (bind (for_fold (range 1)
                   (λ step _, descent_step sphere 0.2%float l (length q3)
                                0.05%float) ())
                (λ _, ret l) w')
    | Raise _ _ => None
    end.
Proof.
  pose proof (steps_compose sphere 1%positive 0.2%float 2 1 0.05%float
                0.01%float (world_of q3) q3 eq_refl) as H.
  apply H; lia.
Defined.



(** * The benchmark *)

Section Bench_facts.
Context {F : Type} {SF : Scalar F} {G : Type} {RG : Rng F G} {Env : Type}.
Context {H : Type} {HF : Harness F H}.
Implicit Types (w : World (F := F) (G := G)) (robot : Robot (F := F) (Env := Env)).

(** X6. The check of a pool stops at the first candidate of non-negative
    distance: it answers [True] when the candidates before that one are in
    collision, whatever the oracle would do on the candidates after it, and
    [False] when all candidates are in collision; it writes nothing. *)
Theorem found_valid_first robot (env : Env) (rows : list (list F)) w :
  final_world (found_valid robot env rows w) = w ∧
  (∀ pre q d rest, rows = pre ++ q :: rest →
     Forall (in_collision robot env) pre →
     sdf robot q env = Some d → nonneg d = true →
     found_valid robot env rows w = Ret true w) ∧
  (Forall (in_collision robot env) rows →
   found_valid robot env rows w = Ret false w) ∧
  (∀ pre q rest, rows = pre ++ q :: rest →
     Forall (in_collision robot env) pre → sdf robot q env = None →
     found_valid robot env rows w = Raise SdfError w).
Proof.
  split; [|split; [|split]].
  - induction rows as [|q rows IH]; [done|]. simpl. unfold bind, bench_sdf.
    destruct (sdf robot q env) as [d|]; [|done]. by destruct (nonneg d).
  - intros pre q d rest -> Hpre Hq Hd.
    induction Hpre as [|p pre (d' & Hp & Hd') _ IH]; simpl; unfold bind, bench_sdf.
    + by rewrite Hq, Hd.
    + by rewrite Hp, Hd'.
  - intros Hall. induction Hall as [|p rows' (d' & Hp & Hd') _ IH]; [done|].
    simpl. unfold bind, bench_sdf. by rewrite Hp, Hd'.
  - intros pre q rest -> Hpre Hq.
    induction Hpre as [|p pre (d' & Hp & Hd') _ IH]; simpl; unfold bind, bench_sdf.
    + by rewrite Hq.
    + by rewrite Hp, Hd'.
Qed.

Lemma found_valid_run robot (env : Env) (rows : list (list F)) w :
  match found_valid robot env rows w with
  | Ret _ w' => w' = w
  | Raise e w' => e = SdfError ∧ ¬ (∀ c, is_Some (sdf robot c env))
  end.
Proof.
  induction rows as [|q rows IH]; [done|]. simpl. unfold bind, bench_sdf.
  destruct (sdf robot q env) as [d|] eqn:Hq.
  - by destruct (nonneg d).
  - split; [done|]. intros Hans. destruct (Hans q) as [d Hd]. congruence.
Qed.

Lemma solve_and_check_run robot q (env : Env) steps w (qv : list F) :
  heap w !! q = Some (Vec qv) →
  match solve_and_check robot q env steps w with
  | Ret _ w' => heap w' !! q = Some (Vec qv)
  | Raise e w' => e = SdfError ∧ ¬ (∀ c, is_Some (sdf robot c env))
  end.
Proof.
  intros Hq. unfold solve_and_check, bind.
  pose proof (project_to_valid_run robot q env steps bench_learning_rate
                bench_noise_scale w qv Hq) as Hrun.
  pose proof (only_oracle_errors robot q env steps bench_learning_rate
                bench_noise_scale w qv Hq) as [_ Hret].
  destruct (project_to_valid _ _ _ _ _ _ _) as [l w1|e w1].
  - destruct Hrun as (-> & Pn & _ & _ & ->).
    unfold rows_of. simpl. rewrite lookup_insert_eq.
    pose proof (found_valid_run robot env Pn
      (logs (mjoin (step_calls <$>
               visited (Z.to_nat steps) (step_fun robot env bench_learning_rate)
                 (initial_pool qv bench_noise_scale)))
         (put (fresh (dom (heap w))) (Mat Pn) w))) as Hfv.
    destruct (found_valid _ _ _ _) as [b w2|e w2]; [|done].
    rewrite Hfv. simpl. rewrite lookup_insert_ne; [done|].
    intros Heq. pose proof (is_fresh (dom (heap w))) as Hfr.
    rewrite Heq in Hfr. apply Hfr, elem_of_dom. by eexists.
  - destruct Hrun as (-> & _ & _). split; [done|]. intros Hans.
    destruct Hret as (l & w' & Hcontra); [|done]. intros c _. apply Hans.
Qed.

Lemma bump_le b n : n ≤ bump b n ≤ S n.
Proof. destruct b; simpl; lia. Qed.

Lemma bench_sample_run robot (env : Env) (acc : H * counts) w :
  match bench_sample robot env acc w with
  | Ret acc' w' =>
      acc'.1 = (halton_next acc.1).2 ∧
      initial_valid_count acc'.2 ≤ S (initial_valid_count acc.2) ∧
      valid_count_10 acc'.2 ≤ S (valid_count_10 acc.2) ∧
      valid_count_100 acc'.2 ≤ S (valid_count_100 acc.2)
  | Raise e w' => e = SdfError ∧ ¬ (∀ c, is_Some (sdf robot c env))
  end.
Proof.
  unfold bench_sample. destruct (halton_next acc.1) as [qv rng] eqn:Hnext.
  unfold bind, alloc. cbv zeta.
  set (q := fresh (dom (heap w))). set (w1 := put q (Vec qv) w).
  unfold bench_sdf at 1.
  destruct (sdf robot qv env) as [d|] eqn:Hd.
  2:{ split; [done|]. intros Hans. destruct (Hans qv) as [d' Hd']. congruence. }
  pose proof (solve_and_check_run robot q env 10 w1 qv (heap_put q _ w)) as H10.
  destruct (solve_and_check robot q env 10 w1) as [f10 w2|e w2]; [|done].
  pose proof (solve_and_check_run robot q env 100 w2 qv H10) as H100.
  destruct (solve_and_check robot q env 100 w2) as [f100 w3|e w3]; [|done].
  unfold ret. simpl. split; [done|].
  pose proof (bump_le (nonneg d) (initial_valid_count acc.2)).
  pose proof (bump_le f10 (valid_count_10 acc.2)).
  pose proof (bump_le f100 (valid_count_100 acc.2)). lia.
Qed.

Lemma bench_loop_run robot (env : Env) n_samples w :
  match bench_loop robot env n_samples w with
  | Ret acc w' =>
      acc.1 = Nat.iter (Z.to_nat n_samples) (λ h, (halton_next h).2) halton_reset ∧
      initial_valid_count acc.2 ≤ Z.to_nat n_samples ∧
      valid_count_10 acc.2 ≤ Z.to_nat n_samples ∧
      valid_count_100 acc.2 ≤ Z.to_nat n_samples
  | Raise e w' =>
      e = SdfError ∧ (0 < n_samples)%Z ∧ ¬ (∀ c, is_Some (sdf robot c env))
  end.
Proof.
  unfold bench_loop, range.
  pose (I := λ (done : list nat) (acc : H * counts) (w' : World (F := F) (G := G)),
    acc.1 = Nat.iter (length done) (λ h, (halton_next h).2) halton_reset ∧
    initial_valid_count acc.2 ≤ length done ∧
    valid_count_10 acc.2 ≤ length done ∧
    valid_count_100 acc.2 ≤ length done).
  pose (E := λ (e : exn) (w' : World (F := F) (G := G)),
    e = SdfError ∧ (0 < n_samples)%Z ∧ ¬ (∀ c, is_Some (sdf robot c env))).
  assert (Hfin : match for_fold (seq 0 (Z.to_nat n_samples))
                         (λ i acc, bench_sample robot env acc)
                         (halton_reset, mkCounts 0 0 0) w with
                 | Ret acc w' => I (seq 0 (Z.to_nat n_samples)) acc w'
                 | Raise e w' => E e w'
                 end).
  { apply for_fold_inv.
    - intros done i rest acc w' Hsplit (Hrng & Hi & H10 & H100).
      apply seq_split in Hsplit as (_ & _ & Hlt).
      pose proof (bench_sample_run robot env acc w') as Hs.
      destruct (bench_sample robot env acc w') as [acc' w''|e w''].
      + destruct Hs as (Hrng' & Hi' & H10' & H100').
        unfold I. rewrite length_app. simpl. rewrite Nat.add_1_r. simpl.
        rewrite Hrng', Hrng. split; [done|]. lia.
      + destruct Hs as (-> & Hnot). split; [done|]. split; [lia|done].
    - unfold I. simpl. split; [done|]. lia. }
  destruct (for_fold _ _ _ _) as [acc w'|e w']; [|done].
  unfold I in Hfin. by rewrite length_seq in Hfin.
Qed.


(** X8. The edges of [n_samples]: [bench] with no sample raises
    [ZeroDivisionError] in its last lines, and with a negative [n_samples]
    it samples nothing and prints three zero counters (the quotients are
    over a negative number, not zero). *)
Theorem bench_without_samples robot (env : Env) (n_samples : Z) w :
  bench robot env 0 w = Failed ZeroDivisionError w ∧
  ((n_samples < 0)%Z → bench robot env n_samples w = Printed (mkCounts 0 0 0) w).
Proof.
  split; [done|]. intros Hneg. unfold bench, bench_loop, range.
  replace (Z.to_nat n_samples) with 0 by lia. simpl.
  rewrite decide_False by lia. done.
Qed.

(** X9. With an oracle that answers on every configuration, [bench] with
    [n_samples] other than zero runs to its last line. *)
Theorem bench_completes robot (env : Env) (n_samples : Z) w :
  (∀ c, is_Some (sdf robot c env)) → n_samples ≠ 0%Z →
  ∃ c w', bench robot env n_samples w = Printed c w'.
Proof.
  intros Hans Hne. unfold bench.
  pose proof (bench_loop_run robot env n_samples w) as Hloop.
  destruct (bench_loop robot env n_samples w) as [acc w'|e w'].
  - rewrite decide_False by done. by eexists _, _.
  - by destruct Hloop as (_ & _ & Hnot).
Qed.

End Bench_facts.

Lemma bench_completes_witness :
  ∃ c w', bench sphere 0.2%float 2 world_empty = Printed c w'.
Proof.
  pose proof (bench_completes sphere 0.2%float 2 world_empty) as H.
  apply H.
  - intros c. by eexists.
  - discriminate.
Defined.

(** * The solver benchmark *)

Section Evaluate_facts.
Context {F : Type} {Env : Type} {H : Type} {HF : Harness F H} {NF : Native F Env}.

Lemma solver_loop_run (env : Env) steps k a (rng : H) vc :
  match for_break (seq a k) (solver_pass env steps) (rng, vc) with
  | inl e =>
      e = BindingError ∧ a < 1000 ∧ 0 < k ∧
      ¬ (∀ q, is_Some (native_solve q env steps eval_learning_rate bench_noise_scale))
  | inr (rng', vc') =>
      rng' = Nat.iter (k `min` (1000 - a)) (λ h, (halton_next h).2) rng ∧
      vc ≤ vc' ≤ vc + k `min` (1000 - a)
  end.
Proof.
  revert a rng vc. induction k as [|k IH]; intros a rng vc; cbn [for_break seq].
  { split; [done|]. lia. }
  unfold solver_pass at 1. cbn [fst snd].
  destruct (decide (1000 ≤ a)) as [Hge|Hlt].
  { replace (S k `min` (1000 - a)) with 0 by lia. split; [done|]. lia. }
  destruct (halton_next rng) as [q_init rng1] eqn:Hnext.
  destruct (native_solve q_init env steps eval_learning_rate bench_noise_scale)
    as [candidates|] eqn:Hsolve.
  2:{ split; [done|]. split; [lia|]. split; [lia|]. intros Hans.
      destruct (Hans q_init) as [c Hc]. congruence. }
  specialize (IH (S a) rng1
    (if decide (0 < length candidates) then S vc else vc)).
  destruct (for_break _ _ _) as [e|[rng' vc']].
  - destruct IH as (-> & _ & _ & Hnot). split; [done|]. split; [lia|]. split; [lia|done].
  - destruct IH as (-> & Hvc).
    replace (S k `min` (1000 - a)) with (S (k `min` (1000 - S a))) by lia.
    split.
    + rewrite Nat.iter_succ_r. by rewrite Hnext.
    + destruct (decide (0 < length candidates)); lia.
Qed.

(** X10. What a run of [benchmark_solver] can end with. When it reports,
    [n_bench] is [min(n_samples // 10, 1000)] and is not zero, the loop drew
    exactly [n_bench] samples (none when [n_bench] is negative) and
    [valid_count] is at most that number. The division of the report
    raises exactly for [0 <= n_samples < 10]. Any other exception is the
    binding's, and then [n_samples >= 10]. *)
Theorem benchmark_solver_outcomes (env : Env) (n_samples steps : Z) (rng : H) :
  match benchmark_solver env n_samples steps rng with
  | inr (n_bench, valid_count, rng') =>
      n_bench = Z.min (n_samples / 10) 1000 ∧ n_bench ≠ 0%Z ∧
      rng' = Nat.iter (Z.to_nat n_bench) (λ h, (halton_next h).2) rng ∧
      valid_count ≤ Z.to_nat n_bench
  | inl DivisionByZero => (0 ≤ n_samples < 10)%Z
  | inl BindingError =>
      (10 ≤ n_samples)%Z ∧
      ¬ (∀ q, is_Some (native_solve q env steps eval_learning_rate bench_noise_scale))
  end.
Proof.
  unfold benchmark_solver, range.
  pose proof (Z.div_mod n_samples 10 ltac:(lia)) as Hdiv.
  pose proof (Z.mod_pos_bound n_samples 10 ltac:(lia)) as Hmod.
  pose proof (solver_loop_run env steps (Z.to_nat (n_samples / 10)) 0 rng 0) as Hloop.
  destruct (for_break _ _ _) as [e|[rng' vc]].
  - destruct Hloop as (-> & _ & Hk & Hnot). split; [|done].
    assert (0 < n_samples / 10)%Z by lia. lia.
  - destruct Hloop as (-> & Hvc). cbv zeta.
    destruct (decide (Z.min (n_samples / 10) 1000 = 0%Z)) as [Hz|Hnz].
    + assert (n_samples / 10 = 0)%Z by lia. lia.
    + split; [done|]. split; [done|].
      replace (Z.to_nat (Z.min (n_samples / 10) 1000))
        with (Z.to_nat (n_samples / 10) `min` (1000 - 0)) by lia.
      split; [done|]. lia.
Qed.

End Evaluate_facts.

(** * Repeated calls and the empty configuration *)

Section Calls_and_edges.
Context {F : Type} {SF : Scalar F} {G : Type} {RG : Rng F G} {Env : Type}.

(** X11. Results are not shared between calls: a second call, whatever its
    arguments, returns an array other than the one the first call returned
    and leaves the first result as it was, also when it raises. *)
Theorem results_not_shared (robot1 robot2 : Robot (F := F) (Env := Env))
    (q1 q2 : loc) (env1 env2 : Env) (steps1 steps2 : Z) (lr1 lr2 ns1 ns2 : F)
    (w : World (F := F) (G := G)) (qv1 qv2 : list F) :
  heap w !! q1 = Some (Vec qv1) → heap w !! q2 = Some (Vec qv2) →
  match project_to_valid robot1 q1 env1 steps1 lr1 ns1 w with
  | Ret l1 w1 =>
      heap w1 !! q2 = Some (Vec qv2) ∧
      match project_to_valid robot2 q2 env2 steps2 lr2 ns2 w1 with
      | Ret l2 w2 => l2 ≠ l1 ∧ heap w2 !! l1 = heap w1 !! l1
      | Raise _ w2 => heap w2 !! l1 = heap w1 !! l1
      end
  | Raise _ _ => True
  end.
Proof.
  intros H1 H2.
  pose proof (project_to_valid_run robot1 q1 env1 steps1 lr1 ns1 w qv1 H1) as Hr1.
  destruct (project_to_valid robot1 _ _ _ _ _ w) as [l1 w1|e w1]; [|done].
  destruct Hr1 as (-> & P1 & _ & _ & ->).
  set (l1 := fresh (dom (heap w))).
  set (w1 := logs _ (put l1 (Mat P1) w)).
  assert (Hq2 : heap w1 !! q2 = Some (Vec qv2)).
  { simpl. rewrite lookup_insert_ne; [done|]. intros Heq.
    pose proof (is_fresh (dom (heap w))) as Hfr. fold l1 in Hfr. rewrite Heq in Hfr.
    apply Hfr, elem_of_dom. by eexists. }
  split; [done|].
  assert (Hne : l1 ≠ fresh (dom (heap w1))).
  { intros Heq. pose proof (is_fresh (dom (heap w1))) as Hfr. rewrite <-Heq in Hfr.
    apply Hfr, elem_of_dom. exists (Mat P1). apply heap_put. }
  pose proof (project_to_valid_run robot2 q2 env2 steps2 lr2 ns2 w1 qv2 Hq2) as Hr2.
  destruct (project_to_valid robot2 _ _ _ _ _ w1) as [l2 w2|e w2].
  - destruct Hr2 as (-> & P2 & _ & _ & ->). split; [done|].
    simpl. by rewrite (lookup_insert_ne _ (fresh _) l1).
  - destruct Hr2 as (_ & _ & Hfr & _). by apply Hfr.
Qed.



End Calls_and_edges.

Lemma results_not_shared_witness :
  match project_to_valid sphere 1%positive 0.2%float 1 0.05%float 0.01%float
          (world_of q3) with
  | Ret l1 w1 =>
      heap w1 !! 1%positive = Some (Vec q3) ∧
      match project_to_valid sphere 1%positive 0.2%float 2 0.05%float 0.01%float
              w1 with
      | Ret l2 w2 => l2 ≠ l1 ∧ heap w2 !! l1 = heap w1 !! l1
      | Raise _ w2 => heap w2 !! l1 = heap w1 !! l1
      end
  | Raise _ _ => True
  end.
Proof.
  pose proof (results_not_shared sphere sphere 1%positive 1%positive 0.2%float
                0.2%float 1 2 0.05%float 0.05%float 0.01%float 0.01%float
                (world_of q3) q3 q3 eq_refl eq_refl) as H.
  exact H.
Defined.

